(** * ts-primer: the decorated [Ryazi.modifyNumbers] pipeline

    A shallow embedding of the executable part of [src/index.js]: the
    [__decorate] helper emitted by the TypeScript compiler, the two
    decorators [sealed] and [square], the class [Ryazi] with its static
    method [modifyNumbers], and the ECMAScript built-ins they call
    ([Object.seal], [Object.getOwnPropertyDescriptor],
    [Object.defineProperty], [Array.prototype.flat], [Array.prototype.map],
    [Math.pow], [/]).

    Arrays live in an explicit heap and are passed by reference, so that
    statements about mutation and freshness are statements about the heap
    and not artefacts of the encoding.  Numbers are idealised: a finite
    JavaScript number is a real number, and rounding and the sign of zero
    are outside the model. *)

From Stdlib Require Import Reals Lra.
From stdpp Require Import base strings option list gmap.

(** ** Numbers and values *)

(** The Number type: the reals, the two infinities and NaN. *)
Inductive number :=
| NaN
| Inf (negative : bool)
| Fin (r : R).

(** A location of the heap of Array objects. *)
Abbreviation loc := nat (only parsing).

(** The values that reach the pipeline: [undefined], numbers and references
    to Array objects. *)
Inductive jsval :=
| Undefined
| Num (n : number)
| Ref (l : loc).

(** The one error the built-ins of the program throw. *)
Inductive error :=
| TypeError.

(** A completion: a value, or an error thrown. *)
Inductive result (A : Type) :=
| Ok (a : A)
| Throw (e : error).
Arguments Ok {A} a.
Arguments Throw {A} e.

#[global] Instance result_ret : MRet result := fun A (a : A) => Ok a.

#[global] Instance result_bind : MBind result := fun A B (k : A -> result B) (m : result A) =>
  match m with
  | Ok a => k a
  | Throw e => Throw e
  end.

(** ** The heap of Array objects

    A location is an index into the heap; allocation appends. *)
Abbreviation heap := (list (list jsval)) (only parsing).

(** Computations that read and write the heap and may throw. *)
Definition M (A : Type) : Type := heap -> result (A * heap).

Definition throw {A} (e : error) : M A := fun _ => Throw e.

#[global] Instance M_ret : MRet M := fun A (a : A) h => Ok (a, h).

#[global] Instance M_bind : MBind M := fun A B (k : A -> M B) (m : M A) h =>
  match m h with
  | Ok (a, h') => k a h'
  | Throw e => Throw e
  end.

(** [new Array] with the given elements. *)
Definition alloc (a : list jsval) : M jsval :=
  fun h => Ok (Ref (length h), h ++ [a]).

(** The elements of the Array a value refers to, if it refers to one. *)
Definition elements (h : heap) (v : jsval) : option (list jsval) :=
  match v with
  | Ref l => h !! l
  | _ => None
  end.

(** [a[i] = v] on the elements of an Array: an index inside the array
    replaces the element, the index [a.length] appends, and an index past
    the end extends the array (the slots in between read as [undefined]). *)
Definition array_set (a : list jsval) (i : nat) (v : jsval) : list jsval :=
  if decide (i < length a) then <[i := v]> a
  else a ++ replicate (i - length a) Undefined ++ [v].

(** [arr[i] = v] as a statement. *)
Definition store (arr : jsval) (i : nat) (v : jsval) : M unit :=
  fun h => match arr with
           | Ref l => match h !! l with
                      | Some a => Ok (tt, <[l := array_set a i v]> h)
                      | None => Throw TypeError
                      end
           | _ => Throw TypeError
           end.

(** [arr.length], for an Array. *)
Definition length_of (arr : jsval) : M nat :=
  fun h => match elements h arr with
           | Some a => Ok (length a, h)
           | None => Throw TypeError
           end.

(** [arr[k]], for an Array; a slot that does not exist reads [undefined]. *)
Definition get (arr : jsval) (k : nat) : M jsval :=
  fun h => match elements h arr with
           | Some a => Ok (default Undefined (a !! k), h)
           | None => Throw TypeError
           end.

(** [for (k of ks) body(k)]. *)
Fixpoint for_each (ks : list nat) (body : nat -> M unit) : M unit :=
  match ks with
  | [] => mret tt
  | k :: ks' => _ ← body k; for_each ks' body
  end.

(** ** Built-ins on numbers *)

(** [Math.pow(base, exponent)] for an exponent that is a natural number
    (the program's only exponent is the literal 2). *)
Definition Math_pow (base : number) (exponent : nat) : number :=
  match exponent, base with
  | O, _ => Fin 1
  | _, NaN => NaN
  | _, Inf negative => Inf (negative && Nat.odd exponent)
  | _, Fin r => Fin (r ^ exponent)
  end.

(** [x / y] for a divisor that is a positive integer literal (the program's
    only divisor is the literal 2). *)
Definition divide (x : number) (y : positive) : number :=
  match x with
  | NaN => NaN
  | Inf negative => Inf negative
  | Fin r => Fin (r / IZR (Zpos y))
  end.

(** What an operand becomes on the way to a number: the string an Array
    converts to is empty, the text of one number, or something that is not
    the text of a number (it holds a comma). *)
Inductive primitive :=
| EmptyString
| NumberText (n : number)
| OtherText.

(** [Array.prototype.join] as [ToPrimitive] sees it.  An array of one
    element converts as that element does, [undefined] inside an array
    converts to the empty string, and an array met again while it is being
    joined converts to the empty string, which is where the fuel ends: a
    chain of one-element arrays longer than the heap has met one twice. *)
Fixpoint join (fuel : nat) (h : heap) (v : jsval) : primitive :=
  match v with
  | Undefined => EmptyString
  | Num n => NumberText n
  | Ref l =>
      match fuel with
      | O => EmptyString
      | S fuel' =>
          match h !! l with
          | Some [] => EmptyString
          | Some [x] => join fuel' h x
          | Some (_ :: _ :: _) => OtherText
          | None => OtherText
          end
      end
  end.

(** [ToNumber(v)]. *)
Definition ToNumber (h : heap) (v : jsval) : number :=
  match v with
  | Undefined => NaN
  | Num n => n
  | Ref _ =>
      match join (length h) h v with
      | EmptyString => Fin 0
      | NumberText n => n
      | OtherText => NaN
      end
  end.

(** ** Built-ins on arrays *)

(** [arr.push(v)]. *)
Definition push (arr : jsval) (v : jsval) : M unit :=
  len ← length_of arr; store arr len v.

(** One round of the loop of [flat] at depth 1: slot [k] of [this] is
    pushed onto [A], or its own elements are when it is an array. *)
Definition flatten_element (A this : jsval) (k : nat) : M unit :=
  element ← get this k;
  isArray ← (fun h => Ok (bool_decide (is_Some (elements h element)), h));
  if (isArray : bool) then
    elementLen ← length_of element;
    for_each (seq 0 elementLen) (fun j => x ← get element j; push A x)
  else push A element.

(** [Array.prototype.flat.call(this)], depth 1: a new array that receives,
    in order, the elements of [this], those that are arrays replaced by
    their own elements. *)
Definition Array_flat (this : jsval) : M jsval :=
  sourceLen ← length_of this;
  A ← alloc [];
  _ ← for_each (seq 0 sourceLen) (flatten_element A this);
  mret A.

(** [Array.prototype.map.call(this, callbackfn)]: a new array of the length
    of [this] whose slot [k] receives [callbackfn(this[k])]. *)
Definition Array_map (this : jsval) (callbackfn : jsval -> M jsval) : M jsval :=
  len ← length_of this;
  A ← alloc (replicate len Undefined);
  _ ← for_each (seq 0 len) (fun k =>
         kValue ← get this k;
         mappedValue ← callbackfn kValue;
         store A k mappedValue);
  mret A.

(** ** Functions, property descriptors and objects *)

(** A function receives its [arguments] and runs on the heap. *)
Definition func := list jsval -> M jsval.

(** What a property holds: a function or a plain value. *)
Inductive pvalue :=
| Function (f : func)
| Data (v : jsval).

(** [f(...arguments)]; calling what is not a function is a TypeError. *)
Definition call (f : pvalue) (arguments : list jsval) : M jsval :=
  match f with
  | Function f => f arguments
  | Data _ => throw TypeError
  end.

(** A data property descriptor.  Every property of this program is
    writable, and neither the program nor [Object.seal] makes one read-only,
    so the descriptor carries no [writable] attribute: read-only properties
    are outside the model. *)
Record descriptor := {
  value : pvalue;
  enumerable : bool;
  configurable : bool
}.

(** An ordinary object: its own properties and its [[Extensible]] slot. *)
Record object := {
  properties : gmap string descriptor;
  extensible : bool
}.

(** A function object as far as the class needs it: the object itself and
    the object its [prototype] property refers to.  The intrinsic
    properties [length], [name] and [prototype] are not represented. *)
Record function_object := {
  self : object;
  prototype : object
}.

(** [Object.getOwnPropertyDescriptor(O, P)]; [None] is [undefined]. *)
Definition Object_getOwnPropertyDescriptor (O : object) (P : string) : option descriptor :=
  properties O !! P.

(** [Object.defineProperty(O, P, Desc)] for a complete data descriptor
    (ValidateAndApplyPropertyDescriptor): a new property needs an extensible
    object; a configurable property is replaced; a property that is not
    configurable keeps [configurable] and [enumerable] and, being writable,
    takes the new value. *)
Definition Object_defineProperty (O : object) (P : string) (Desc : descriptor) : result object :=
  match properties O !! P with
  | None =>
      if extensible O
      then Ok {| properties := <[P := Desc]> (properties O); extensible := extensible O |}
      else Throw TypeError
  | Some current =>
      if configurable current
      then Ok {| properties := <[P := Desc]> (properties O); extensible := extensible O |}
      else if configurable Desc || negb (eqb (enumerable Desc) (enumerable current))
      then Throw TypeError
      else Ok {| properties := <[P := Desc]> (properties O); extensible := extensible O |}
  end.

(** [Object.seal(O)]: no property can be added any more and every property
    becomes non-configurable; the values stay as they are. *)
Definition Object_seal (O : object) : object :=
  {| properties :=
       (fun d => {| value := value d; enumerable := enumerable d; configurable := false |})
         <$> properties O;
     extensible := false |}.

(** [O[P] = V] on an own data property or a missing one.  In strict code a
    failed assignment throws; in sloppy code it is ignored. *)
Definition Object_set (strict : bool) (O : object) (P : string) (V : pvalue) : result object :=
  match properties O !! P with
  | Some current =>
      Ok {| properties :=
              <[P := {| value := V; enumerable := enumerable current;
                        configurable := configurable current |}]> (properties O);
            extensible := extensible O |}
  | None =>
      if extensible O
      then Ok {| properties :=
                   <[P := {| value := V; enumerable := true; configurable := true |}]>
                     (properties O);
                 extensible := extensible O |}
      else if strict then Throw TypeError else Ok O
  end.

(** [delete O[P]]: the object afterwards and the value of the expression. *)
Definition Object_delete (strict : bool) (O : object) (P : string) : result (object * bool) :=
  match properties O !! P with
  | None => Ok (O, true)
  | Some current =>
      if configurable current
      then Ok ({| properties := delete P (properties O); extensible := extensible O |}, true)
      else if strict then Throw TypeError else Ok (O, false)
  end.

(** What code outside the class can try on it: define a property, assign
    to one, delete one. *)
Inductive attempt :=
| Define (P : string) (Desc : descriptor)
| Assign (strict : bool) (P : string) (V : pvalue)
| Delete (strict : bool) (P : string).

(** The object after an attempt, or the error thrown where it is made. *)
Definition perform (att : attempt) (O : object) : result object :=
  match att with
  | Define P Desc => Object_defineProperty O P Desc
  | Assign strict P V => Object_set strict O P V
  | Delete strict P =>
      match Object_delete strict O P with
      | Ok (O', _) => Ok O'
      | Throw e => Throw e
      end
  end.

(** ** The program *)

(** A class decorator works on the constructor in place and may return a
    replacement: the constructor after the call, and what was returned
    ([None] is [undefined]). *)
Definition class_decorator := function_object -> function_object * option function_object.

(** A method decorator receives the target, the key and the descriptor
    object ([None] is [undefined]) and may throw: the descriptor object after
    the call, and what was returned. *)
Definition method_decorator :=
  function_object -> string -> option descriptor ->
  result (option descriptor * option descriptor).

(** [__decorate(decorators, target)], two arguments ([c < 3]): [r] starts as
    the target and, from the last decorator to the first,
    [r = d(r) || r].  ([Reflect.decorate] is not a function unless a
    polyfill defines it, and the script loads none: the loop runs.) *)
Definition __decorate_class (decorators : list class_decorator) (target : function_object)
  : function_object :=
  fold_right (fun d r => let '(r', returned) := d r in default r' returned) target decorators.

(** [__decorate(decorators, target, key, null)], four arguments ([c > 3]
    and [desc === null]): [r] starts as the own property descriptor and, from
    the last decorator to the first, [r = d(target, key, r) || r]; a truthy
    [r] is then defined on the target.  The result is the target
    afterwards. *)
Definition __decorate_member (decorators : list method_decorator) (target : function_object)
    (key : string) : result function_object :=
  r ← fold_right
        (fun d acc =>
           r ← acc;
           '(r', returned) ← d target key r;
           mret (match returned with Some x => Some x | None => r' end))
        (mret (Object_getOwnPropertyDescriptor (self target) key)) decorators;
  match r with
  | Some r =>
      O ← Object_defineProperty (self target) key r;
      mret {| self := O; prototype := prototype target |}
  | None => mret target
  end.

(** [function sealed(constructor)]. *)
Definition sealed : class_decorator := fun constructor =>
  ({| self := Object_seal (self constructor);
      prototype := Object_seal (prototype constructor) |}, None).

(** The function that [square] stores in the descriptor; it closes over
    [original].  The loop copies [arguments] into the new array [args] (the
    rest parameter [...args] of the TypeScript source); then
    [original(args.flat().map(function (n) { return Math.pow(n, 2); }))]. *)
Definition square_wrapper (original : pvalue) : func := fun arguments =>
  args ← alloc [];
  _ ← for_each (seq 0 (length arguments)) (fun _i =>
         store args _i (default Undefined (arguments !! _i)));
  flat ← Array_flat args;
  squares ← Array_map flat (fun n => fun h => Ok (Num (Math_pow (ToNumber h n) 2), h));
  call original [squares].

(** [function square(target, propertyKey, originalMethod)]. *)
Definition square : method_decorator := fun target propertyKey originalMethod =>
  match originalMethod with
  | None => Throw TypeError
  | Some d =>
      let original := value d in
      Ok (Some {| value := Function (square_wrapper original);
                  enumerable := enumerable d;
                  configurable := configurable d |}, None)
  end.

Module Ryazi.

(** [function Ryazi() {}]. *)
Definition constructor : func := fun _ => mret Undefined.

(** [Ryazi.modifyNumbers = function (numbers) { ... }], before it is
    decorated. *)
Definition modifyNumbers : func := fun arguments =>
  let numbers := default Undefined (arguments !! 0) in
  Array_map numbers (fun n => fun h => Ok (Num (divide (ToNumber h n) 2), h)).

End Ryazi.

(** The descriptor [square] leaves in place of the one of the original
    method. *)
Definition decorated_descriptor (configurable : bool) : descriptor :=
  {| value := Function (square_wrapper (Function Ryazi.modifyNumbers));
     enumerable := true; configurable := configurable |}.

(** The class as the function expression creates it. *)
Definition Ryazi_declared : function_object :=
  {| self := {| properties := ∅; extensible := true |};
     prototype :=
       {| properties :=
            {[ "constructor" := {| value := Function Ryazi.constructor;
                                   enumerable := false; configurable := true |} ]};
          extensible := true |} |}.

(** The class after [Ryazi.modifyNumbers = ...] and
    [__decorate([square], Ryazi, "modifyNumbers", null)]. *)
Definition Ryazi_decorated : result function_object :=
  O ← Object_set false (self Ryazi_declared) "modifyNumbers" (Function Ryazi.modifyNumbers);
  __decorate_member [square]
    {| self := O; prototype := prototype Ryazi_declared |} "modifyNumbers".

(** The class the emitted script ends with:
    [Ryazi = __decorate([sealed], Ryazi)]. *)
Definition Ryazi_class : result function_object :=
  C ← Ryazi_decorated;
  mret (__decorate_class [sealed] C).

(** The class of the TypeScript source, where [@sealed] is commented out. *)
Definition Ryazi_class_ts : result function_object := Ryazi_decorated.

(** [C[key](...arguments)]. *)
Definition invoke (C : function_object) (key : string) (arguments : list jsval) : M jsval :=
  match properties (self C) !! key with
  | Some d => call (value d) arguments
  | None => throw TypeError
  end.

(** [Ryazi.modifyNumbers(...arguments)] in the emitted script. *)
Definition modifyNumbers (arguments : list jsval) : M jsval :=
  match Ryazi_class with
  | Ok C => invoke C "modifyNumbers" arguments
  | Throw e => throw e
  end.

(** [Ryazi.modifyNumbers([2, 3, 4])], the call the script logs. *)
Definition main : M jsval :=
  numbers ← alloc [Num (Fin 2); Num (Fin 3); Num (Fin 4)];
  modifyNumbers [numbers].

(** [modifyNumbers(modifyNumbers([2, 3, 4]))]: the first result and the
    second. *)
Definition main_twice : M (jsval * jsval) :=
  numbers ← alloc [Num (Fin 2); Num (Fin 3); Num (Fin 4)];
  once ← modifyNumbers [numbers];
  again ← modifyNumbers [once];
  mret (once, again).

(** ** The pipeline as the specification words it

    The specification describes the operation on sequences of real numbers:
    flatten the collected arguments one level deep, square every element,
    halve every element. *)

(** An argument of the call: a number, or a group of numbers. *)
Inductive argument :=
| One (x : R)
| Group (xs : list R).

Definition spec_flatten (args : list argument) : list R :=
  concat (map (fun a => match a with One x => [x] | Group xs => xs end) args).

Definition spec_square (xs : list R) : list R := map (fun x => (x ^ 2)%R) xs.

Definition spec_halve (xs : list R) : list R := map (fun x => (x / 2)%R) xs.

Definition spec_pipeline (args : list argument) : list R :=
  spec_halve (spec_square (spec_flatten args)).

(** A sequence of real numbers as the elements of an Array. *)
Definition reals (xs : list R) : list jsval := map (fun x => Num (Fin x)) xs.

(** A value of the running program stands for an argument of the
    specification. *)
Definition represents (h : heap) (v : jsval) (a : argument) : Prop :=
  match a with
  | One x => v = Num (Fin x)
  | Group xs => exists l, v = Ref l /\ h !! l = Some (reals xs)
  end.

(** The elements [flat] collects from the elements of its receiver. *)
Definition flat_of (h : heap) (vs : list jsval) : list jsval :=
  concat (map (fun v => match elements h v with Some b => b | None => [v] end) vs).

(** A value that, when it is a reference, refers to an array of the heap. *)
Definition allocated (h : heap) (v : jsval) : Prop :=
  match v with
  | Ref l => l < length h
  | _ => True
  end.

(** * Properties *)

(** Equalities between arrays of explicit real numbers. *)
Ltac reals_eq := repeat (f_equal; try lra).

(** ** The built-ins on examples *)

Lemma ToNumber_examples :
  ToNumber [[]] (Ref 0) = Fin 0
  /\ ToNumber [[Num (Fin 5)]; [Ref 0]] (Ref 1) = Fin 5
  /\ ToNumber [[Num (Fin 1); Num (Fin 2)]] (Ref 0) = NaN
  /\ ToNumber [[Undefined]] (Ref 0) = Fin 0
  /\ ToNumber [[Ref 0]] (Ref 0) = Fin 0
  /\ ToNumber [] Undefined = NaN.
Proof. repeat split. Qed.

Lemma Math_pow_examples :
  Math_pow (Fin 3) 2 = Fin (3 ^ 2)
  /\ Math_pow (Inf true) 2 = Inf false
  /\ Math_pow NaN 2 = NaN
  /\ divide (Inf true) 2 = Inf true
  /\ divide (Fin 9) 2 = Fin (9 / 2).
Proof. repeat split. Qed.

Lemma Array_flat_example :
  Array_flat (Ref 1) [[Num NaN; Undefined]; [Ref 0; Num (Inf true); Ref 0]]
  = Ok (Ref 2, [[Num NaN; Undefined]; [Ref 0; Num (Inf true); Ref 0];
                [Num NaN; Undefined; Num (Inf true); Num NaN; Undefined]]).
Proof. reflexivity. Qed.


(** ** The monad *)

Lemma bind_Ok {A B} (m : M A) (k : A -> M B) h a h' :
  m h = Ok (a, h') -> (m ≫= k) h = k a h'.
Proof. intros E. unfold mbind, M_bind. by rewrite E. Qed.

Lemma bind_Throw {A B} (m : M A) (k : A -> M B) h e :
  m h = Throw e -> (m ≫= k) h = Throw e.
Proof. intros E. unfold mbind, M_bind. by rewrite E. Qed.

(** ** The heap under allocation and stores to the newest array *)

Lemma lookup_newest (h : heap) (a : list jsval) : (h ++ [a]) !! length h = Some a.
Proof. by rewrite list_lookup_middle. Qed.

Lemma lookup_older (h : heap) (a b : list jsval) l :
  h !! l = Some b -> (h ++ [a]) !! l = Some b.
Proof. intros E. by apply lookup_app_l_Some. Qed.

Lemma insert_newest (h : heap) (a a' : list jsval) :
  <[length h := a']> (h ++ [a]) = h ++ [a'].
Proof.
  replace (length h) with (length h + 0) by lia.
  by rewrite insert_app_r.
Qed.

Lemma array_set_append (a : list jsval) v : array_set a (length a) v = a ++ [v].
Proof.
  unfold array_set. case_decide; [lia|].
  by rewrite Nat.sub_diag.
Qed.

Lemma push_newest (h : heap) (acc : list jsval) v :
  push (Ref (length h)) v (h ++ [acc]) = Ok (tt, h ++ [acc ++ [v]]).
Proof.
  unfold push.
  rewrite (bind_Ok _ _ _ (length acc) (h ++ [acc])).
  - unfold store. rewrite lookup_newest, array_set_append. by rewrite insert_newest.
  - unfold length_of. simpl. by rewrite lookup_newest.
Qed.

Lemma get_older (h : heap) (acc b : list jsval) l k :
  h !! l = Some b ->
  get (Ref l) k (h ++ [acc]) = Ok (default Undefined (b !! k), h ++ [acc]).
Proof. intros E. unfold get. simpl. by rewrite (lookup_older _ _ _ _ E). Qed.

(** ** Loops *)

(** Reading the slots [0 .. length a - 1] of an array reads the array. *)
Lemma read_all (a : list jsval) :
  map (fun k => default Undefined (a !! k)) (seq 0 (length a)) = a.
Proof.
  apply list_eq. intros i. rewrite list_lookup_fmap.
  destruct (decide (i < length a)) as [Hi|Hi].
  - rewrite lookup_seq_lt by done. simpl.
    destruct (lookup_lt_is_Some_2 a i Hi) as [x Hx]. by rewrite Hx.
  - rewrite lookup_seq_ge by lia. simpl.
    symmetry. apply lookup_ge_None. lia.
Qed.

(** A loop that stores slot [i] of the newest array at each index [i] from
    its length on appends the stored values. *)
Lemma for_each_store_newest (f : nat -> jsval) (h : heap) k : forall n0 acc,
  length acc = n0 ->
  for_each (seq n0 k) (fun i => store (Ref (length h)) i (f i)) (h ++ [acc])
  = Ok (tt, h ++ [acc ++ map f (seq n0 k)]).
Proof.
  induction k as [|k IH]; intros n0 acc Hlen; simpl.
  - by rewrite app_nil_r.
  - erewrite bind_Ok.
    2:{ unfold store. subst n0.
        rewrite lookup_newest, array_set_append, insert_newest. reflexivity. }
    rewrite IH by (rewrite length_app; simpl; lia).
    subst n0. by rewrite <- app_assoc.
Qed.

(** The inner loop of [flat]: the elements of an older array are pushed
    onto the newest one. *)
Lemma for_each_push_newest (h : heap) l b k : forall n0 acc,
  h !! l = Some b ->
  for_each (seq n0 k) (fun j => x ← get (Ref l) j; push (Ref (length h)) x) (h ++ [acc])
  = Ok (tt, h ++ [acc ++ map (fun j => default Undefined (b !! j)) (seq n0 k)]).
Proof.
  induction k as [|k IH]; intros n0 acc Hl; simpl.
  - by rewrite app_nil_r.
  - erewrite bind_Ok.
    2:{ erewrite bind_Ok by (by apply get_older). apply push_newest. }
    rewrite IH by done.
    by rewrite <- app_assoc.
Qed.

(** One round of the loop of [flat], run on an older array. *)
Lemma flatten_element_newest (h : heap) l0 a k acc :
  h !! l0 = Some a ->
  allocated h (default Undefined (a !! k)) ->
  flatten_element (Ref (length h)) (Ref l0) k (h ++ [acc])
  = Ok (tt, h ++ [acc ++ flat_of h [default Undefined (a !! k)]]).
Proof.
  intros Hl0 Hel. unfold flatten_element, flat_of.
  erewrite bind_Ok by (by apply get_older).
  destruct (default Undefined (a !! k)) as [|n|l'] eqn:E; simpl in *.
  - erewrite bind_Ok by reflexivity. simpl. apply push_newest.
  - erewrite bind_Ok by reflexivity. simpl. apply push_newest.
  - destruct (lookup_lt_is_Some_2 h l' Hel) as [b Hb].
    erewrite bind_Ok by (rewrite (lookup_older _ _ _ _ Hb); reflexivity).
    rewrite bool_decide_eq_true_2 by eauto.
    erewrite bind_Ok
      by (unfold length_of; simpl; rewrite (lookup_older _ _ _ _ Hb); reflexivity).
    rewrite for_each_push_newest with (b := b) by done.
    by rewrite read_all, Hb, app_nil_r.
Qed.

(** The loop of [flat], run on an older array whose references refer to
    older arrays. *)
Lemma for_each_flatten_newest (h : heap) l0 a k : forall n0 acc,
  h !! l0 = Some a ->
  Forall (allocated h) a ->
  for_each (seq n0 k) (flatten_element (Ref (length h)) (Ref l0)) (h ++ [acc])
  = Ok (tt, h ++ [acc ++ flat_of h (map (fun j => default Undefined (a !! j)) (seq n0 k))]).
Proof.
  induction k as [|k IH]; intros n0 acc Hl0 Ha; simpl.
  - unfold flat_of. simpl. by rewrite app_nil_r.
  - assert (Hel : allocated h (default Undefined (a !! n0))).
    { destruct (a !! n0) as [v|] eqn:E; simpl; [|done].
      eapply Forall_lookup_1; eauto. }
    erewrite bind_Ok by (by apply flatten_element_newest).
    rewrite IH by done.
    unfold flat_of. simpl. by rewrite app_nil_r, <- app_assoc.
Qed.

Lemma Array_flat_older (h : heap) l0 a :
  h !! l0 = Some a ->
  Forall (allocated h) a ->
  Array_flat (Ref l0) h = Ok (Ref (length h), h ++ [flat_of h a]).
Proof.
  intros Hl0 Ha. unfold Array_flat.
  erewrite bind_Ok by (unfold length_of; simpl; rewrite Hl0; reflexivity).
  erewrite bind_Ok by reflexivity.
  erewrite bind_Ok by (by apply for_each_flatten_newest).
  by rewrite read_all.
Qed.

Lemma array_set_middle (done : list jsval) r rest v :
  array_set (done ++ r :: rest) (length done) v = done ++ v :: rest.
Proof.
  unfold array_set. rewrite decide_True by (rewrite length_app; simpl; lia).
  rewrite insert_app_r_alt by lia. by rewrite Nat.sub_diag.
Qed.

(** The loop of [map], run on an older array with a callback that returns
    without touching the heap: each slot of the newest array receives the
    callback's value for the slot of the receiver, computed on some heap. *)
Lemma for_each_map_newest (h : heap) l a (callbackfn : jsval -> M jsval) g k :
  forall n0 done rest,
  h !! l = Some a ->
  (forall n h', callbackfn n h' = Ok (g h' n, h')) ->
  length done = n0 ->
  length rest = k ->
  exists out,
    for_each (seq n0 k) (fun k =>
        kValue ← get (Ref l) k;
        mappedValue ← callbackfn kValue;
        store (Ref (length h)) k mappedValue) (h ++ [done ++ rest])
    = Ok (tt, h ++ [done ++ out])
    /\ Forall2 (fun n v => exists h', v = g h' n)
         (map (fun j => default Undefined (a !! j)) (seq n0 k)) out.
Proof.
  induction k as [|k IH]; intros n0 done rest Hl Hcb Hdone Hrest; simpl.
  - destruct rest; [|done]. exists []. split; [done|constructor].
  - destruct rest as [|r rest]; [done|]. simpl in Hrest. subst n0.
    set (v := g (h ++ [done ++ r :: rest]) (default Undefined (a !! length done))).
    destruct (IH (S (length done)) (done ++ [v]) rest) as (out & Hrun & Hout); try done.
    { rewrite length_app. simpl. lia. }
    { lia. }
    exists (v :: out). split.
    + erewrite bind_Ok.
      2:{ erewrite bind_Ok by (by apply get_older).
          erewrite bind_Ok by apply Hcb.
          unfold store.
          rewrite lookup_newest, array_set_middle, insert_newest. reflexivity. }
      fold v. replace (done ++ v :: rest) with ((done ++ [v]) ++ rest)
        by (by rewrite <- app_assoc).
      rewrite Hrun. by rewrite <- app_assoc.
    + constructor; [by eexists|done].
Qed.

Lemma Array_map_older (h : heap) l a (callbackfn : jsval -> M jsval) g :
  h !! l = Some a ->
  (forall n h', callbackfn n h' = Ok (g h' n, h')) ->
  exists out,
    Array_map (Ref l) callbackfn h = Ok (Ref (length h), h ++ [out])
    /\ Forall2 (fun n v => exists h', v = g h' n) a out.
Proof.
  intros Hl Hcb. unfold Array_map.
  destruct (for_each_map_newest h l a callbackfn g (length a) 0 []
              (replicate (length a) Undefined)) as (out & Hrun & Hout); try done.
  { by rewrite length_replicate. }
  exists out. split.
  - erewrite bind_Ok by (unfold length_of; simpl; rewrite Hl; reflexivity).
    erewrite bind_Ok by reflexivity.
    erewrite bind_Ok by apply Hrun.
    reflexivity.
  - by rewrite read_all in Hout.
Qed.

(** [map] on what is not an array throws. *)
Lemma Array_map_not_array (h : heap) v callbackfn :
  elements h v = None -> Array_map v callbackfn h = Throw TypeError.
Proof.
  intros E. unfold Array_map. apply bind_Throw. unfold length_of. by rewrite E.
Qed.

(** ** The class *)

Lemma Ryazi_decorated_eq :
  Ryazi_decorated
  = Ok {| self := {| properties := {[ "modifyNumbers" := decorated_descriptor true ]};
                     extensible := true |};
          prototype := prototype Ryazi_declared |}.
Proof.
  unfold Ryazi_decorated, Object_set. simpl.
  rewrite lookup_empty. simpl.
  unfold __decorate_member, Object_getOwnPropertyDescriptor, Object_defineProperty. simpl.
  rewrite ?lookup_insert_eq. simpl.
  rewrite ?lookup_insert_eq. simpl.
  rewrite insert_insert_eq, insert_empty. reflexivity.
Qed.

Lemma Ryazi_class_eq :
  Ryazi_class
  = Ok {| self := {| properties := {[ "modifyNumbers" := decorated_descriptor false ]};
                     extensible := false |};
          prototype :=
            {| properties :=
                 {[ "constructor" := {| value := Function Ryazi.constructor;
                                        enumerable := false; configurable := false |} ]};
               extensible := false |} |}.
Proof.
  unfold Ryazi_class. rewrite Ryazi_decorated_eq. simpl.
  unfold Object_seal. simpl. by rewrite !map_fmap_singleton.
Qed.

(** The function the emitted script calls as [Ryazi.modifyNumbers] is the
    one [square] built around the original method. *)
Lemma modifyNumbers_eq arguments :
  modifyNumbers arguments = square_wrapper (Function Ryazi.modifyNumbers) arguments.
Proof.
  unfold modifyNumbers. rewrite Ryazi_class_eq.
  unfold invoke. simpl. by rewrite lookup_singleton_eq.
Qed.

(** ** One call of the decorated method *)

Lemma allocated_newer (h : heap) a v : allocated h v -> allocated (h ++ [a]) v.
Proof. destruct v; simpl; [done..|]. rewrite length_app. simpl. lia. Qed.

Lemma flat_of_newer (h : heap) a vs :
  Forall (allocated h) vs -> flat_of (h ++ [a]) vs = flat_of h vs.
Proof.
  intros Hvs. unfold flat_of. f_equal. apply map_ext_Forall.
  eapply Forall_impl; [exact Hvs|].
  intros [| |l] Hl; simpl in *; [done..|].
  by rewrite lookup_app_l.
Qed.

(** What the wrapper does before it calls the original: it allocates the
    array of the arguments, the flattened array and the array of squares,
    and passes the last one. *)
Lemma square_wrapper_prepare (original : pvalue) (h : heap) arguments :
  Forall (allocated h) arguments ->
  exists squares,
    square_wrapper original arguments h
    = call original [Ref (length h + 2)] (h ++ [arguments; flat_of h arguments; squares])
    /\ Forall2 (fun n v => exists h', v = Num (Math_pow (ToNumber h' n) 2))
         (flat_of h arguments) squares.
Proof.
  intros Hargs.
  set (h1 := h ++ [arguments]).
  set (h2 := h1 ++ [flat_of h arguments]).
  destruct (Array_map_older h2 (length h1) (flat_of h arguments)
              (fun n => fun h => Ok (Num (Math_pow (ToNumber h n) 2), h))
              (fun h n => Num (Math_pow (ToNumber h n) 2)))
    as (squares & Hsq & Hsquares); [apply lookup_newest|done|].
  exists squares. split; [|done].
  unfold square_wrapper.
  erewrite bind_Ok by reflexivity.
  erewrite bind_Ok by (by apply (for_each_store_newest _ h _ 0 [])).
  rewrite app_nil_l, read_all. fold h1.
  erewrite bind_Ok.
  2:{ apply Array_flat_older; [apply lookup_newest|].
      eapply Forall_impl; [exact Hargs|]. intros v. apply allocated_newer. }
  replace (flat_of h1 arguments) with (flat_of h arguments)
    by (symmetry; by apply flat_of_newer).
  fold h2.
  erewrite bind_Ok by apply Hsq.
  unfold h2, h1. rewrite !length_app. simpl.
  rewrite <- !app_assoc. simpl.
  do 3 f_equal. lia.
Qed.

(** The original method on an array: a new array of the halves. *)
Lemma Ryazi_modifyNumbers_run (h : heap) l a :
  h !! l = Some a ->
  exists out,
    Ryazi.modifyNumbers [Ref l] h = Ok (Ref (length h), h ++ [out])
    /\ Forall2 (fun n v => exists h', v = Num (divide (ToNumber h' n) 2)) a out.
Proof.
  intros Hl. unfold Ryazi.modifyNumbers.
  cbn [lookup list_lookup default from_option id]. unfold Datatypes.id.
  by apply Array_map_older.
Qed.

(** The heap after a call holds, after the heap before it, the array of
    the arguments, the flattened array, the array of squares and the array
    returned, which is the newest. *)
Lemma square_wrapper_run (h : heap) arguments :
  Forall (allocated h) arguments ->
  exists squares out,
    square_wrapper (Function Ryazi.modifyNumbers) arguments h
    = Ok (Ref (length h + 3), h ++ [arguments; flat_of h arguments; squares; out])
    /\ Forall2 (fun n v => exists h', v = Num (Math_pow (ToNumber h' n) 2))
         (flat_of h arguments) squares
    /\ Forall2 (fun n v => exists h', v = Num (divide (ToNumber h' n) 2)) squares out.
Proof.
  intros Hargs.
  destruct (square_wrapper_prepare (Function Ryazi.modifyNumbers) h arguments Hargs)
    as (squares & Hrun & Hsquares).
  assert (Hl : (h ++ [arguments; flat_of h arguments; squares]) !! (length h + 2)
               = Some squares).
  { rewrite lookup_app_r by lia.
    by replace (length h + 2 - length h) with 2 by lia. }
  destruct (Ryazi_modifyNumbers_run _ _ _ Hl) as (out & Hhalf & Hout).
  exists squares, out. split; [|done].
  rewrite Hrun. unfold call. rewrite Hhalf.
  rewrite length_app, <- app_assoc. simpl.
  do 3 f_equal; lia.
Qed.

(** ** Arrays of real numbers *)


Lemma reals_length (xs : list R) : length (reals xs) = length xs.
Proof. unfold reals. apply length_map. Qed.

Lemma reals_app (xs ys : list R) : reals (xs ++ ys) = reals xs ++ reals ys.
Proof. unfold reals. apply map_app. Qed.

Lemma reals_inj (xs ys : list R) : reals xs = reals ys -> xs = ys.
Proof.
  revert ys. induction xs as [|x xs IH]; intros [|y ys] E; simpl in E; try done.
  injection E as -> E. f_equal. by apply IH.
Qed.

(** A callback that maps the number [x] to the number [f x] whatever the
    heap maps an array of real numbers to an array of real numbers. *)
Lemma Forall2_reals (F : list (list jsval) -> jsval -> jsval) (f : R -> R) :
  (forall h' x, F h' (Num (Fin x)) = Num (Fin (f x))) ->
  forall xs out,
    Forall2 (fun n v => exists h', v = F h' n) (reals xs) out ->
    out = reals (map f xs).
Proof.
  intros HF xs. induction xs as [|x xs IH]; intros out H; simpl in H.
  - by inversion H.
  - inversion H as [|n v ns vs [h' Hv] Hrest]; subst.
    rewrite HF. simpl. f_equal. by apply IH.
Qed.

(** Arguments that stand for arguments of the specification are allocated
    and flatten as the specification says. *)
Lemma represents_allocated (h : heap) arguments args :
  Forall2 (represents h) arguments args -> Forall (allocated h) arguments.
Proof.
  induction 1 as [|v a vs as' Hv _ IH]; constructor; [|done].
  destruct a as [x|xs]; simpl in Hv.
  - by subst.
  - destruct Hv as (l & -> & Hl). simpl. by eapply lookup_lt_Some.
Qed.

Lemma represents_flat_of (h : heap) arguments args :
  Forall2 (represents h) arguments args ->
  flat_of h arguments = reals (spec_flatten args).
Proof.
  unfold flat_of, spec_flatten.
  induction 1 as [|v a vs as' Hv _ IH]; simpl; [done|].
  rewrite reals_app, <- IH. f_equal.
  destruct a as [x|xs]; simpl in Hv.
  - by subst.
  - destruct Hv as (l & -> & Hl). simpl. by rewrite Hl.
Qed.

(** The decorated method on arguments that stand for real numbers. *)
Lemma modifyNumbers_reals (h : heap) arguments args :
  Forall2 (represents h) arguments args ->
  modifyNumbers arguments h
  = Ok (Ref (length h + 3),
        h ++ [arguments; reals (spec_flatten args);
              reals (spec_square (spec_flatten args)); reals (spec_pipeline args)]).
Proof.
  intros Hrep. rewrite modifyNumbers_eq.
  destruct (square_wrapper_run h arguments) as (squares & out & Hrun & Hsq & Hout).
  { by eapply represents_allocated. }
  rewrite (represents_flat_of _ _ _ Hrep) in *.
  apply (Forall2_reals (fun h n => Num (Math_pow (ToNumber h n) 2)) (fun x => (x ^ 2)%R))
    in Hsq; [|done].
  fold (spec_square (spec_flatten args)) in Hsq. subst squares.
  apply (Forall2_reals (fun h n => Num (divide (ToNumber h n) 2)) (fun x => (x / 2)%R))
    in Hout; [|done].
  fold (spec_halve (spec_square (spec_flatten args))) in Hout. subst out.
  exact Hrun.
Qed.

(** The decorated method on one array of real numbers. *)
Lemma modifyNumbers_array (h : heap) a (S : list R) :
  h !! a = Some (reals S) ->
  modifyNumbers [Ref a] h
  = Ok (Ref (length h + 3),
        h ++ [[Ref a]; reals S; reals (spec_square S); reals (spec_halve (spec_square S))]).
Proof.
  intros Ha.
  rewrite (modifyNumbers_reals h [Ref a] [Group S]).
  - unfold spec_pipeline, spec_flatten. simpl. by rewrite app_nil_r.
  - repeat constructor. simpl. eauto.
Qed.

Lemma lookup_result (h : heap) (a b c d : list jsval) :
  (h ++ [a; b; c; d]) !! (length h + 3) = Some d.
Proof.
  rewrite lookup_app_r by lia.
  by replace (length h + 3 - length h) with 3 by lia.
Qed.

(** An array nested in the argument is not flattened: it is converted to
    a number, as [Math.pow([3], 2)] is. *)
Lemma modifyNumbers_nested_example :
  modifyNumbers [Ref 1] [[Num (Fin 3)]; [Ref 0]]
  = Ok (Ref 5, [[Num (Fin 3)]; [Ref 0]; [Ref 1]; [Ref 0];
                [Num (Fin (3 ^ 2))]; [Num (Fin (3 ^ 2 / 2))]]).
Proof. rewrite modifyNumbers_eq. reflexivity. Qed.

(** * The claims *)

(** The call the script logs: [Ryazi.modifyNumbers([2, 3, 4])] returns a
    new array holding [2, 4.5, 8]. *)
Lemma main_logs (h : heap) :
  exists r h',
    main h = Ok (Ref r, h')
    /\ h' !! r = Some (reals [2; 4.5; 8]%R).
Proof.
  exists (length h + 4), (h ++ [reals [2; 3; 4]%R; [Ref (length h)]; reals [2; 3; 4]%R;
                               reals (spec_square [2; 3; 4]%R);
                               reals (spec_halve (spec_square [2; 3; 4]%R))]).
  split.
  - unfold main. erewrite bind_Ok by reflexivity.
    rewrite (modifyNumbers_array _ _ [2; 3; 4]%R) by apply lookup_newest.
    rewrite length_app, <- app_assoc. simpl. do 3 f_equal; lia.
  - rewrite lookup_app_r by lia.
    replace (length h + 4 - length h) with 4 by lia. simpl.
    reals_eq.
Qed.



(** C3. For a sequence [S] of real numbers, the array the decorated
    [modifyNumbers] returns has the length of [S]. *)
Theorem modifyNumbers_length (h : heap) (a : nat) (S : list R) :
  h !! a = Some (reals S) ->
  exists r h' out,
    modifyNumbers [Ref a] h = Ok (Ref r, h')
    /\ h' !! r = Some out
    /\ length out = length S.
Proof.
  intros Ha. eexists _, _, _. split; [by apply modifyNumbers_array|].
  split; [apply lookup_result|].
  unfold spec_halve, spec_square. by rewrite reals_length, !length_map.
Qed.

Lemma modifyNumbers_length_witness :
  [reals [2; 3; 4]%R] !! 0 = Some (reals [2; 3; 4]%R)
  /\ exists r h' out,
       modifyNumbers [Ref 0] [reals [2; 3; 4]%R] = Ok (Ref r, h')
       /\ h' !! r = Some out
       /\ length out = length [2; 3; 4]%R.
Proof.
  split; [reflexivity|].
  apply (modifyNumbers_length [reals [2; 3; 4]%R] 0 [2; 3; 4]%R); reflexivity.
Defined.

(** C8. [modifyNumbers([])] returns an empty array: whatever the heap,
    the call on a newly created empty array returns a reference to an
    array without elements. *)
Theorem modifyNumbers_empty (h : heap) :
  exists r h',
    (numbers ← alloc []; modifyNumbers [numbers]) h = Ok (Ref r, h')
    /\ h' !! r = Some [].
Proof.
  eexists _, _. split.
  - erewrite bind_Ok by reflexivity.
    apply (modifyNumbers_array _ _ []), lookup_newest.
  - apply lookup_result.
Qed.



(** The original method, called on what is not an array, throws: errors
    are within reach of the model. *)
Lemma Ryazi_modifyNumbers_throws (h : heap) (n : number) :
  Ryazi.modifyNumbers [Num n] h = Throw TypeError
  /\ Ryazi.modifyNumbers [] h = Throw TypeError.
Proof. split; by apply Array_map_not_array. Qed.

(** The decorated method returns for every list of arguments that refer to
    arrays of the heap; the arrays of the heap before the call are the first
    arrays of the heap after it, and the array returned is none of them. *)
Lemma modifyNumbers_frame (h : heap) arguments :
  Forall (allocated h) arguments ->
  exists r h',
    modifyNumbers arguments h = Ok (Ref r, h')
    /\ h `prefix_of` h'
    /\ length h <= r.
Proof.
  intros Hargs. rewrite modifyNumbers_eq.
  destruct (square_wrapper_run h arguments Hargs) as (squares & out & Hrun & _).
  eexists _, _. split; [exact Hrun|]. split; [by eexists|lia].
Qed.

(** C7. The decorated [modifyNumbers] is total on sequences of real
    numbers: for every such sequence, the empty one included, the call
    returns a reference and throws nothing.  ([modifyNumbers] is a function
    of the logic, so the call terminates.) *)
Theorem modifyNumbers_total (h : heap) (a : nat) (S : list R) :
  h !! a = Some (reals S) ->
  exists r h', modifyNumbers [Ref a] h = Ok (Ref r, h').
Proof. intros Ha. eexists _, _. by apply modifyNumbers_array. Qed.

Lemma modifyNumbers_total_witness :
  [reals []] !! 0 = Some (reals [])
  /\ exists r h', modifyNumbers [Ref 0] [reals []] = Ok (Ref r, h').
Proof.
  split; [reflexivity|].
  apply (modifyNumbers_total [reals []] 0 []); reflexivity.
Defined.

(** C9. The decorated [modifyNumbers] does not change its argument: the
    array passed holds after the call the elements it held before, in the
    same order, and the array returned is another one, which did not
    exist before the call. *)
Theorem modifyNumbers_preserves_argument (h : heap) (a : nat) (S : list jsval) :
  h !! a = Some S ->
  exists r h',
    modifyNumbers [Ref a] h = Ok (Ref r, h')
    /\ h' !! a = Some S
    /\ r <> a
    /\ h !! r = None.
Proof.
  intros Ha.
  destruct (modifyNumbers_frame h [Ref a]) as (r & h' & Hrun & Hpre & Hr).
  { repeat constructor. simpl. by eapply lookup_lt_Some. }
  exists r, h'. split; [done|].
  pose proof (lookup_lt_Some _ _ _ Ha).
  split; [|split; [lia|by apply lookup_ge_None]].
  by eapply prefix_lookup_Some.
Qed.

Lemma modifyNumbers_preserves_argument_witness :
  [[Num (Fin 2); Undefined; Ref 0]] !! 0 = Some [Num (Fin 2); Undefined; Ref 0]
  /\ exists r h',
       modifyNumbers [Ref 0] [[Num (Fin 2); Undefined; Ref 0]] = Ok (Ref r, h')
       /\ h' !! 0 = Some [Num (Fin 2); Undefined; Ref 0]
       /\ r <> 0
       /\ [[Num (Fin 2); Undefined; Ref 0]] !! r = None.
Proof.
  split; [reflexivity|].
  apply (modifyNumbers_preserves_argument
           [[Num (Fin 2); Undefined; Ref 0]] 0 [Num (Fin 2); Undefined; Ref 0]);
    reflexivity.
Defined.

(** C6. The decorated [modifyNumbers] is deterministic and pure: two
    calls on arrays that hold the same sequence return arrays that hold the
    same sequence, whatever else the two heaps hold; every array that exists
    before a call holds the same elements after it; and the array returned
    did not exist before the call. *)
Theorem modifyNumbers_pure (h1 h2 : heap) (a1 a2 : nat) (S : list R) :
  h1 !! a1 = Some (reals S) ->
  h2 !! a2 = Some (reals S) ->
  exists r1 h1' r2 h2' out,
    modifyNumbers [Ref a1] h1 = Ok (Ref r1, h1')
    /\ modifyNumbers [Ref a2] h2 = Ok (Ref r2, h2')
    /\ h1' !! r1 = Some out
    /\ h2' !! r2 = Some out
    /\ (forall l b, h1 !! l = Some b -> h1' !! l = Some b)
    /\ h1 !! r1 = None.
Proof.
  intros H1 H2.
  eexists _, _, _, _, _.
  split; [by apply modifyNumbers_array|].
  split; [by apply modifyNumbers_array|].
  split; [apply lookup_result|].
  split; [apply lookup_result|].
  split.
  - intros l b Hl. by apply lookup_app_l_Some.
  - apply lookup_ge_None. lia.
Qed.

Lemma modifyNumbers_pure_witness :
  [reals [2; 3]%R] !! 0 = Some (reals [2; 3]%R)
  /\ [[]; reals [2; 3]%R] !! 1 = Some (reals [2; 3]%R)
  /\ exists r1 h1' r2 h2' out,
       modifyNumbers [Ref 0] [reals [2; 3]%R] = Ok (Ref r1, h1')
       /\ modifyNumbers [Ref 1] [[]; reals [2; 3]%R] = Ok (Ref r2, h2')
       /\ h1' !! r1 = Some out
       /\ h2' !! r2 = Some out
       /\ (forall l b, [reals [2; 3]%R] !! l = Some b -> h1' !! l = Some b)
       /\ [reals [2; 3]%R] !! r1 = None.
Proof.
  split; [reflexivity|]. split; [reflexivity|].
  apply (modifyNumbers_pure [reals [2; 3]%R] [[]; reals [2; 3]%R] 0 1 [2; 3]%R);
    reflexivity.
Defined.

(** C5. [modifyNumbers] is not idempotent: applied to [[2, 3, 4]] it
    returns [[2, 4.5, 8]], applied to that result it returns
    [[2, 10.125, 32]], and the two differ. *)
Theorem modifyNumbers_not_idempotent (h : heap) :
  exists r1 r2 h' once again,
    main_twice h = Ok ((Ref r1, Ref r2), h')
    /\ h' !! r1 = Some once
    /\ h' !! r2 = Some again
    /\ once = reals [2; 4.5; 8]%R
    /\ again = reals [2; 10.125; 32]%R
    /\ once <> again.
Proof.
  set (S := [2; 3; 4]%R).
  set (h1 := h ++ [reals S]).
  set (h2 := h1 ++ [[Ref (length h)]; reals S; reals (spec_square S);
                    reals (spec_halve (spec_square S))]).
  assert (Honce : reals (spec_halve (spec_square S)) = reals [2; 4.5; 8]%R).
  { unfold S. simpl. reals_eq. }
  assert (Hagain : reals (spec_halve (spec_square [2; 4.5; 8]%R)) = reals [2; 10.125; 32]%R).
  { simpl. reals_eq. }
  assert (H1 : modifyNumbers [Ref (length h)] h1 = Ok (Ref (length h1 + 3), h2)).
  { apply modifyNumbers_array, lookup_newest. }
  assert (Hr1 : h2 !! (length h1 + 3) = Some (reals [2; 4.5; 8]%R)).
  { unfold h2. by rewrite lookup_result, Honce. }
  pose proof (modifyNumbers_array h2 _ _ Hr1) as H2.
  eexists (length h1 + 3), (length h2 + 3), _, _, _.
  split.
  { unfold main_twice. erewrite bind_Ok by reflexivity.
    erewrite bind_Ok by exact H1.
    erewrite bind_Ok by exact H2.
    reflexivity. }
  split; [by apply lookup_app_l_Some|].
  split; [apply lookup_result|].
  split; [done|]. split; [done|].
  rewrite Hagain. intros E. apply reals_inj in E.
  injection E as E. lra.
Qed.



(** ** Sealing *)

Lemma lookup_sealed (O : object) (P : string) :
  properties (Object_seal O) !! P
  = (fun d => {| value := value d; enumerable := enumerable d; configurable := false |})
      <$> properties O !! P.
Proof. unfold Object_seal. simpl. apply lookup_fmap. Qed.

Lemma dom_sealed (O : object) :
  dom (properties (Object_seal O)) = dom (properties O).
Proof. unfold Object_seal. simpl. apply dom_fmap_L. Qed.

(** Whatever is tried on a sealed object, it has afterwards the members it
    had, and it is still not extensible. *)
Lemma sealed_keeps_members (O : object) (att : attempt) (O' : object) :
  perform att (Object_seal O) = Ok O' ->
  dom (properties O') = dom (properties O) /\ extensible O' = false.
Proof.
  destruct att as [P Desc|strict P V|strict P]; simpl;
    unfold Object_defineProperty, Object_set, Object_delete;
    rewrite lookup_sealed;
    destruct (properties O !! P) as [current|] eqn:E; simpl.
  - destruct (_ || _); [done|]. intros [= <-]. simpl. split; [|done].
    rewrite dom_insert_lookup_L; [apply dom_fmap_L|].
    rewrite lookup_fmap, E. by eexists.
  - done.
  - intros [= <-]. simpl. split; [|done].
    rewrite dom_insert_lookup_L; [apply dom_fmap_L|].
    rewrite lookup_fmap, E. by eexists.
  - destruct strict; [done|]. intros [= <-]. split; [apply dom_sealed|done].
  - destruct strict; [done|]. intros [= <-]. split; [apply dom_sealed|done].
  - intros [= <-]. split; [apply dom_sealed|done].
Qed.

(** Sealing leaves what a call of a member does as it was. *)
Lemma invoke_sealed (C : function_object) (key : string) arguments :
  invoke (fst (sealed C)) key arguments = invoke C key arguments.
Proof.
  unfold invoke, sealed. cbn [fst self]. rewrite lookup_sealed.
  by destruct (properties (self C) !! key).
Qed.

(** The class of the TypeScript source is not sealed: a member can be
    added to it. *)
Lemma Ryazi_class_ts_accepts (V : pvalue) :
  exists C O',
    Ryazi_class_ts = Ok C
    /\ perform (Assign false "extra" V) (self C) = Ok O'
    /\ properties O' !! "extra"
       = Some {| value := V; enumerable := true; configurable := true |}.
Proof.
  eexists _, _. split; [apply Ryazi_decorated_eq|].
  simpl. unfold Object_set. simpl.
  rewrite lookup_singleton_ne by done. simpl.
  split; [reflexivity|]. simpl. by rewrite lookup_insert_eq.
Qed.



(** * Further properties of the code *)

(** ** [__decorate] *)

(** X1. With no decorator, [__decorate(decorators, target, key, null)]
    leaves the target as it is, whether it has the member or not: the
    descriptor read from the target is defined on it again. *)
Theorem decorate_member_nil (target : function_object) (key : string) :
  __decorate_member [] target key = Ok target.
Proof.
  destruct target as [[props ext] proto].
  unfold __decorate_member, Object_getOwnPropertyDescriptor, Object_defineProperty. simpl.
  destruct (props !! key) as [d|] eqn:E; simpl; [|done].
  rewrite (insert_id props key d E).
  destruct (configurable d); simpl; [done|].
  by rewrite eqb_reflx.
Qed.

(** X2. Decorating a member the target does not have with [square]
    throws a TypeError: [square] reads [value] of [undefined]. *)
Theorem decorate_member_square_missing (target : function_object) (key : string) :
  properties (self target) !! key = None ->
  __decorate_member [square] target key = Throw TypeError.
Proof.
  intros E. unfold __decorate_member, Object_getOwnPropertyDescriptor. simpl.
  by rewrite E.
Qed.

Lemma decorate_member_square_missing_witness :
  properties (self Ryazi_declared) !! "modifyNumbers" = None
  /\ __decorate_member [square] Ryazi_declared "modifyNumbers" = Throw TypeError.
Proof.
  split; [reflexivity|].
  apply (decorate_member_square_missing Ryazi_declared "modifyNumbers"); reflexivity.
Defined.

(** The descriptor [square] makes of a descriptor. *)
Lemma decorate_member_square_Some (target : function_object) (key : string)
    (d : descriptor) :
  properties (self target) !! key = Some d ->
  __decorate_member [square] target key
  = Ok {| self :=
            {| properties :=
                 <[key := {| value := Function (square_wrapper (value d));
                             enumerable := enumerable d;
                             configurable := configurable d |}]>
                   (properties (self target));
               extensible := extensible (self target) |};
          prototype := prototype target |}.
Proof.
  intros E.
  unfold __decorate_member, Object_getOwnPropertyDescriptor, Object_defineProperty. simpl.
  rewrite E. simpl.
  destruct (configurable d) eqn:Hc; simpl; rewrite ?eqb_reflx; reflexivity.
Qed.







(** X6. Stacking: [__decorate([square, square], target, key, null)] does
    what two calls of [__decorate([square], target, key, null)] do one after
    the other, and fails when they fail. *)
Theorem decorate_member_square_twice (target : function_object) (key : string) :
  __decorate_member [square; square] target key
  = (target' ← __decorate_member [square] target key;
     __decorate_member [square] target' key).
Proof.
  destruct (properties (self target) !! key) as [d|] eqn:E.
  - rewrite (decorate_member_square_Some _ _ _ E).
    unfold mbind at 1, result_bind.
    erewrite decorate_member_square_Some by (simpl; apply lookup_insert_eq).
    simpl. rewrite insert_insert_eq.
    unfold __decorate_member, Object_getOwnPropertyDescriptor, Object_defineProperty. simpl.
    rewrite E. simpl.
    destruct (configurable d) eqn:Hc; simpl; rewrite ?eqb_reflx; reflexivity.
  - unfold __decorate_member, Object_getOwnPropertyDescriptor. simpl.
    by rewrite E.
Qed.


(** ** [sealed] *)

(** Sealing a sealed object changes nothing. *)
Lemma Object_seal_idemp (O : object) : Object_seal (Object_seal O) = Object_seal O.
Proof.
  unfold Object_seal. simpl. f_equal.
  rewrite <- map_fmap_compose. by apply map_fmap_ext.
Qed.

(** X8. [sealed] protects the constructor and its prototype, for every
    class: whatever is then tried on either object, an attempt that throws
    nothing leaves the object with the members it had before sealing, and
    not extensible. *)
Theorem sealed_protects_class (C : function_object) (att : attempt) :
  (forall O',
     perform att (self (__decorate_class [sealed] C)) = Ok O' ->
     dom (properties O') = dom (properties (self C)) /\ extensible O' = false)
  /\ (forall O',
        perform att (prototype (__decorate_class [sealed] C)) = Ok O' ->
        dom (properties O') = dom (properties (prototype C)) /\ extensible O' = false).
Proof. split; intros O'; simpl; apply sealed_keeps_members. Qed.

(** X9. Sealing twice is sealing once:
    [__decorate([sealed, sealed], C)] is [__decorate([sealed], C)]. *)
Theorem sealed_twice (C : function_object) :
  __decorate_class [sealed; sealed] C = __decorate_class [sealed] C.
Proof. simpl. by rewrite !Object_seal_idemp. Qed.

(** ** The method before it is decorated *)





(** ** The decorated method *)



(** The half of the square of a number is NaN, the positive infinity or a
    real number that is not negative. *)
Lemma divide_Math_pow_range (n : number) :
  divide (Math_pow n 2) 2 = NaN
  \/ divide (Math_pow n 2) 2 = Inf false
  \/ exists y, divide (Math_pow n 2) 2 = Fin y /\ (0 <= y)%R.
Proof.
  destruct n as [|negative|x]; simpl.
  - by left.
  - right. left. by rewrite andb_false_r.
  - right. right. eexists. split; [reflexivity|].
    pose proof (pow2_ge_0 x). simpl in *. lra.
Qed.

(** X13. Whatever the arguments are, numbers, [undefined], arrays, arrays
    of arrays, as long as their references refer to arrays of the heap: the
    decorated [modifyNumbers] throws nothing, adds exactly four arrays to the
    heap and changes none, and returns the last of them, which has one
    element for each element of the arguments flattened one level. *)
Theorem modifyNumbers_any_arguments (h : heap) (arguments : list jsval) :
  Forall (allocated h) arguments ->
  exists h' out,
    modifyNumbers arguments h = Ok (Ref (length h + 3), h')
    /\ h `prefix_of` h'
    /\ length h' = length h + 4
    /\ h' !! (length h + 3) = Some out
    /\ length out = length (flat_of h arguments).
Proof.
  intros Hargs. rewrite modifyNumbers_eq.
  destruct (square_wrapper_run h arguments Hargs) as (squares & out & Hrun & Hsq & Hout).
  eexists _, out. split; [exact Hrun|].
  split; [by eexists|].
  split; [rewrite length_app; simpl; lia|].
  split; [apply lookup_result|].
  apply Forall2_length in Hsq, Hout. lia.
Qed.

Lemma modifyNumbers_any_arguments_witness :
  Forall (allocated [[Ref 0]]) [Undefined; Ref 0; Num NaN]
  /\ exists h' out,
       modifyNumbers [Undefined; Ref 0; Num NaN] [[Ref 0]] = Ok (Ref (1 + 3), h')
       /\ [[Ref 0]] `prefix_of` h'
       /\ length h' = 1 + 4
       /\ h' !! (1 + 3) = Some out
       /\ length out = length (flat_of [[Ref 0]] [Undefined; Ref 0; Num NaN]).
Proof.
  assert (H : Forall (allocated [[Ref 0]]) [Undefined; Ref 0; Num NaN]).
  { repeat constructor. }
  split; [exact H|].
  exact (modifyNumbers_any_arguments [[Ref 0]] [Undefined; Ref 0; Num NaN] H).
Defined.

(** X14. Whatever the arguments are, every element of the array the
    decorated [modifyNumbers] returns is a number, and that number is NaN,
    the positive infinity or a real number that is not negative: never
    [undefined], never a reference, never a negative number. *)
Theorem modifyNumbers_range (h : heap) (arguments : list jsval) :
  Forall (allocated h) arguments ->
  exists r h' out,
    modifyNumbers arguments h = Ok (Ref r, h')
    /\ h' !! r = Some out
    /\ Forall (fun v => exists n,
                 v = Num n
                 /\ (n = NaN \/ n = Inf false \/ exists y, n = Fin y /\ (0 <= y)%R))
         out.
Proof.
  intros Hargs. rewrite modifyNumbers_eq.
  destruct (square_wrapper_run h arguments Hargs) as (squares & out & Hrun & Hsq & Hout).
  eexists _, _, out. split; [exact Hrun|].
  split; [apply lookup_result|].
  clear Hrun. revert out Hout.
  induction Hsq as [|n sq ns sqs [h1 Hn] _ IH]; intros out Hout.
  - inversion Hout. constructor.
  - inversion Hout as [|sq' v sqs' vs [h2 Hv] Hrest]; subst.
    constructor; [|by apply IH].
    eexists. split; [reflexivity|]. simpl ToNumber.
    apply divide_Math_pow_range.
Qed.

Lemma modifyNumbers_range_witness :
  Forall (allocated [[Num (Fin (-3)); Undefined]]) [Ref 0; Num (Inf true)]
  /\ exists r h' out,
       modifyNumbers [Ref 0; Num (Inf true)] [[Num (Fin (-3)); Undefined]] = Ok (Ref r, h')
       /\ h' !! r = Some out
       /\ Forall (fun v => exists n,
                    v = Num n
                    /\ (n = NaN \/ n = Inf false \/ exists y, n = Fin y /\ (0 <= y)%R))
            out.
Proof.
  assert (H : Forall (allocated [[Num (Fin (-3)); Undefined]]) [Ref 0; Num (Inf true)]).
  { repeat constructor. }
  split; [exact H|].
  exact (modifyNumbers_range [[Num (Fin (-3)); Undefined]] [Ref 0; Num (Inf true)] H).
Defined.

(** X15. Only the flattened arguments count: two calls whose arguments,
    real numbers or arrays of real numbers, flatten to the same sequence
    return arrays that hold the same sequence, however the numbers are
    grouped.  So [modifyNumbers(2, 3, 4)], [modifyNumbers([2, 3, 4])] and
    [modifyNumbers([2], [3, 4])] agree. *)
Theorem modifyNumbers_grouping (h1 h2 : heap) (arguments1 arguments2 : list jsval)
    (args1 args2 : list argument) :
  Forall2 (represents h1) arguments1 args1 ->
  Forall2 (represents h2) arguments2 args2 ->
  spec_flatten args1 = spec_flatten args2 ->
  exists r1 h1' r2 h2' out,
    modifyNumbers arguments1 h1 = Ok (Ref r1, h1')
    /\ modifyNumbers arguments2 h2 = Ok (Ref r2, h2')
    /\ h1' !! r1 = Some out
    /\ h2' !! r2 = Some out.
Proof.
  intros H1 H2 Hflat.
  eexists _, _, _, _, _.
  split; [by apply modifyNumbers_reals|].
  split; [by apply modifyNumbers_reals|].
  split; [apply lookup_result|].
  rewrite lookup_result. unfold spec_pipeline. by rewrite Hflat.
Qed.

Lemma modifyNumbers_grouping_witness :
  exists r1 h1' r2 h2' out,
    modifyNumbers [Num (Fin 2); Num (Fin 3)] [] = Ok (Ref r1, h1')
    /\ modifyNumbers [Ref 0] [reals [2; 3]%R] = Ok (Ref r2, h2')
    /\ h1' !! r1 = Some out
    /\ h2' !! r2 = Some out.
Proof.
  apply (modifyNumbers_grouping [] [reals [2; 3]%R] [Num (Fin 2); Num (Fin 3)] [Ref 0]
           [One 2%R; One 3%R] [Group [2; 3]%R]).
  - constructor; [reflexivity|]. constructor; [reflexivity|]. constructor.
  - constructor; [|constructor]. exists 0. split; reflexivity.
  - reflexivity.
Defined.

(** X16. The sign of the input is lost: a sequence of real numbers and
    the sequence of their opposites give arrays that hold the same
    sequence. *)
Theorem modifyNumbers_even (h1 h2 : heap) (a1 a2 : nat) (S : list R) :
  h1 !! a1 = Some (reals S) ->
  h2 !! a2 = Some (reals (map Ropp S)) ->
  exists r1 h1' r2 h2' out,
    modifyNumbers [Ref a1] h1 = Ok (Ref r1, h1')
    /\ modifyNumbers [Ref a2] h2 = Ok (Ref r2, h2')
    /\ h1' !! r1 = Some out
    /\ h2' !! r2 = Some out.
Proof.
  intros H1 H2.
  eexists _, _, _, _, _.
  split; [by apply modifyNumbers_array|].
  split; [by apply modifyNumbers_array|].
  split; [apply lookup_result|].
  rewrite lookup_result. do 3 f_equal.
  unfold spec_square. rewrite map_map. apply map_ext. intros x. ring.
Qed.

Lemma modifyNumbers_even_witness :
  [reals [2; -3]%R] !! 0 = Some (reals [2; -3]%R)
  /\ [reals (map Ropp [2; -3]%R)] !! 0 = Some (reals (map Ropp [2; -3]%R))
  /\ exists r1 h1' r2 h2' out,
       modifyNumbers [Ref 0] [reals [2; -3]%R] = Ok (Ref r1, h1')
       /\ modifyNumbers [Ref 0] [reals (map Ropp [2; -3]%R)] = Ok (Ref r2, h2')
       /\ h1' !! r1 = Some out
       /\ h2' !! r2 = Some out.
Proof.
  split; [reflexivity|]. split; [reflexivity|].
  apply (modifyNumbers_even [reals [2; -3]%R] [reals (map Ropp [2; -3]%R)] 0 0 [2; -3]%R);
    reflexivity.
Defined.



(** X18. A call on two arrays of real numbers returns an array that holds
    what the call on the first returns followed by what the call on the
    second returns. *)
Theorem modifyNumbers_concat (h : heap) (a b : nat) (S1 S2 : list R) :
  h !! a = Some (reals S1) ->
  h !! b = Some (reals S2) ->
  exists r h' ra ha rb hb out1 out2,
    modifyNumbers [Ref a; Ref b] h = Ok (Ref r, h')
    /\ modifyNumbers [Ref a] h = Ok (Ref ra, ha)
    /\ modifyNumbers [Ref b] h = Ok (Ref rb, hb)
    /\ ha !! ra = Some out1
    /\ hb !! rb = Some out2
    /\ h' !! r = Some (out1 ++ out2).
Proof.
  intros Ha Hb.
  eexists _, _, _, _, _, _, _, _.
  split.
  { apply (modifyNumbers_reals h [Ref a; Ref b] [Group S1; Group S2]).
    repeat constructor; simpl; eauto. }
  split; [by apply modifyNumbers_array|].
  split; [by apply modifyNumbers_array|].
  split; [apply lookup_result|].
  split; [apply lookup_result|].
  rewrite lookup_result. f_equal.
  unfold spec_pipeline, spec_flatten, spec_halve, spec_square. simpl.
  by rewrite app_nil_r, !map_app, reals_app.
Qed.

Lemma modifyNumbers_concat_witness :
  [reals [2]%R; reals [3; 4]%R] !! 0 = Some (reals [2]%R)
  /\ [reals [2]%R; reals [3; 4]%R] !! 1 = Some (reals [3; 4]%R)
  /\ exists r h' ra ha rb hb out1 out2,
       modifyNumbers [Ref 0; Ref 1] [reals [2]%R; reals [3; 4]%R] = Ok (Ref r, h')
       /\ modifyNumbers [Ref 0] [reals [2]%R; reals [3; 4]%R] = Ok (Ref ra, ha)
       /\ modifyNumbers [Ref 1] [reals [2]%R; reals [3; 4]%R] = Ok (Ref rb, hb)
       /\ ha !! ra = Some out1
       /\ hb !! rb = Some out2
       /\ h' !! r = Some (out1 ++ out2).
Proof.
  split; [reflexivity|]. split; [reflexivity|].
  apply (modifyNumbers_concat [reals [2]%R; reals [3; 4]%R] 0 1 [2]%R [3; 4]%R);
    reflexivity.
Defined.
